(** * print_diagonal: drawing a diagonal line on the terminal

    Shallow embedding of [0x04-more_functions_nested_loops/7-print_diagonal.c].

    The C function has two [int] locals ([col], [row]), one [int] argument
    and writes characters one at a time with [_putchar].  The embedding keeps
    that shape: machine integers are [Z] values in the 32-bit signed range,
    [col++] and [row++] are written with their two's complement wrap-around,
    the output stream is threaded explicitly, and each [for] loop is a
    fuel-indexed function that reports how it stopped. *)

From Stdlib Require Import ZArith List Ascii Bool Lia.
Import ListNotations.
Local Open Scope Z_scope.

(** ** Machine integers *)

Definition INT_MAX : Z := 2147483647.
Definition INT_MIN : Z := -2147483648.

(** Reduction of a mathematical integer to the value an [int] holds. *)
Definition int_wrap (z : Z) : Z := (z - INT_MIN) mod 4294967296 + INT_MIN.

(** [x++] on an [int].  ISO C leaves the increment of [INT_MAX] undefined;
    the value taken here is the two's complement one, [INT_MIN].  The results
    below about [n = INT_MAX] use only that the incremented counter is again
    an [int] ([int_wrap_in_int]). *)
Definition int_succ (x : Z) : Z := int_wrap (x + 1).

Definition in_int (z : Z) : Prop := INT_MIN <= z <= INT_MAX.

(** ** Characters and the output stream *)

Definition SP : ascii := " "%char.
Definition BS : ascii := "\"%char.
Definition NL : ascii := "010"%char.

(** The stream holds every character written so far, oldest first. *)
Definition stream : Type := list ascii.

(** Modelled from the spec: [_putchar] is declared in holberton.h and defined
    outside this file; the spec describes it as a single-character output
    primitive that always succeeds and whose result is not inspected.  It
    appends its argument to the output stream. *)
Definition _putchar (c : ascii) (out : stream) : stream := out ++ [c].

(** ** Outcomes of a bounded run

    [Done out]: control reached the end of the construct with [out] written.
    [OutOfFuel out]: the step budget ran out while the construct was still
    executing; [out] is what had been written by then. *)
Inductive outcome : Type :=
| Done (out : stream)
| OutOfFuel (out : stream).

Definition emitted (o : outcome) : stream :=
  match o with
  | Done out => out
  | OutOfFuel out => out
  end.

Definition is_done (o : outcome) : bool :=
  match o with
  | Done _ => true
  | OutOfFuel _ => false
  end.

(** ** The program *)

(** [for (row = 1; row < col; row++) _putchar(' ');]
    entered with the current value of [row]. *)
Fixpoint inner_loop (fuel : nat) (row col : Z) (out : stream) : outcome :=
  match fuel with
  | O => OutOfFuel out
  | S fuel' =>
      if row <? col
      then inner_loop fuel' (int_succ row) col (_putchar SP out)
      else Done out
  end.

(** [for (col = 1; col <= n; col++) { inner loop; _putchar('\\'); _putchar('\n'); }]
    entered with the current value of [col]. *)
Fixpoint outer_loop (fuel : nat) (col n : Z) (out : stream) : outcome :=
  match fuel with
  | O => OutOfFuel out
  | S fuel' =>
      if col <=? n
      then match inner_loop fuel' 1 col out with
           | Done out1 =>
               outer_loop fuel' (int_succ col) n (_putchar NL (_putchar BS out1))
           | OutOfFuel out1 => OutOfFuel out1
           end
      else Done out
  end.

(** [void print_diagonal(int n)] *)
Definition print_diagonal (fuel : nat) (n : Z) (out : stream) : outcome :=
  if n <=? 0
  then Done (_putchar NL out)
  else outer_loop fuel 1 n out.

(** ** Vocabulary for stating what was written *)

(** Line [i] (1-indexed) of the drawing, with its newline. *)
Definition row_text (i : nat) : list ascii := repeat SP (i - 1) ++ [BS; NL].

(** Line [i] without its newline. *)
Definition row_content (i : nat) : list ascii := repeat SP (i - 1) ++ [BS].

(** [k] consecutive lines starting at line [c]. *)
Definition rows (c k : nat) : list ascii := flat_map row_text (seq c k).

(** The whole drawing of size [n]. *)
Definition diagonal (n : nat) : list ascii := rows 1 n.

(** The newline-terminated lines of a stream, each without its newline;
    [cur] is the line being read.  Characters after the last newline do not
    form a line. *)
Fixpoint split_lines (cur : list ascii) (s : stream) : list (list ascii) :=
  match s with
  | [] => []
  | c :: s' =>
      if Ascii.eqb c NL
      then cur :: split_lines [] s'
      else split_lines (cur ++ [c]) s'
  end.

Definition lines (s : stream) : list (list ascii) := split_lines [] s.

Definition count_newline (s : stream) : nat :=
  length (filter (fun c => Ascii.eqb c NL) s).

Definition count_content (s : stream) : nat :=
  length (filter (fun c => negb (Ascii.eqb c NL)) s).

(** [o2] continues [o1]: a finished run stays as it is, an unfinished one
    can only have more written after what it had. *)
Definition extends (o1 o2 : outcome) : Prop :=
  match o1 with
  | Done s1 => o2 = Done s1
  | OutOfFuel s1 => exists w, emitted o2 = s1 ++ w
  end.

(** The outcome of a run started on a stream that already holds [pre]. *)
Definition after (pre : stream) (o : outcome) : outcome :=
  match o with
  | Done s => Done (pre ++ s)
  | OutOfFuel s => OutOfFuel (pre ++ s)
  end.

(** A call completes when some step budget lets it reach its end. *)
Definition completes (n : Z) : Prop :=
  exists fuel out, print_diagonal fuel n [] = Done out.

Example print_diagonal_2 :
  print_diagonal 5 2 [] = Done [BS; NL; SP; BS; NL].
Proof. reflexivity. Qed.

Example print_diagonal_short_budget :
  print_diagonal 2 2 [] = OutOfFuel [BS; NL].
Proof. reflexivity. Qed.

(** ** Machine arithmetic *)

Lemma int_wrap_in_int (z : Z) : in_int (int_wrap z).
Proof.
  unfold in_int, int_wrap, INT_MIN, INT_MAX.
  pose proof (Z.mod_pos_bound (z - -2147483648) 4294967296 ltac:(lia)).
  lia.
Qed.

Lemma int_wrap_small (z : Z) : in_int z -> int_wrap z = z.
Proof.
  unfold in_int, int_wrap, INT_MIN, INT_MAX. intros H.
  rewrite Z.mod_small; lia.
Qed.

Lemma int_succ_small (x : Z) : INT_MIN <= x < INT_MAX -> int_succ x = x + 1.
Proof.
  intros H. apply int_wrap_small. unfold in_int. lia.
Qed.

Lemma int_succ_INT_MAX : int_succ INT_MAX = INT_MIN.
Proof. reflexivity. Qed.

(** ** Streams only grow *)

Lemma after_nil (o : outcome) : after [] o = o.
Proof. destruct o; reflexivity. Qed.

Lemma after_after (p q : stream) (o : outcome) :
  after p (after q o) = after (p ++ q) o.
Proof. destruct o; simpl; rewrite app_assoc; reflexivity. Qed.

Lemma inner_loop_after (fuel : nat) :
  forall row col pre out,
    inner_loop fuel row col (pre ++ out) = after pre (inner_loop fuel row col out).
Proof.
  induction fuel as [|fuel IH]; intros row col pre out; simpl.
  - reflexivity.
  - destruct (row <? col).
    + unfold _putchar. rewrite <- app_assoc. apply IH.
    + reflexivity.
Qed.

Lemma outer_loop_after (fuel : nat) :
  forall col n pre out,
    outer_loop fuel col n (pre ++ out) = after pre (outer_loop fuel col n out).
Proof.
  induction fuel as [|fuel IH]; intros col n pre out; simpl.
  - reflexivity.
  - destruct (col <=? n); [|reflexivity].
    rewrite inner_loop_after.
    destruct (inner_loop fuel 1 col out) as [out1|out1]; simpl.
    + unfold _putchar. rewrite <- !app_assoc. apply IH.
    + reflexivity.
Qed.

Lemma print_diagonal_after (fuel : nat) (n : Z) (pre out : stream) :
  print_diagonal fuel n (pre ++ out) = after pre (print_diagonal fuel n out).
Proof.
  unfold print_diagonal. destruct (n <=? 0).
  - unfold _putchar. simpl. rewrite app_assoc. reflexivity.
  - apply outer_loop_after.
Qed.

Lemma emitted_after (pre : stream) (o : outcome) :
  emitted (after pre o) = pre ++ emitted o.
Proof. destruct o; reflexivity. Qed.

Lemma is_done_after (pre : stream) (o : outcome) :
  is_done (after pre o) = is_done o.
Proof. destruct o; reflexivity. Qed.

Lemma outer_loop_emitted (fuel : nat) (col n : Z) (out : stream) :
  exists w, emitted (outer_loop fuel col n out) = out ++ w.
Proof.
  exists (emitted (outer_loop fuel col n [])).
  rewrite <- emitted_after, <- outer_loop_after, app_nil_r. reflexivity.
Qed.

(** ** A larger step budget continues the same run *)

Lemma extends_refl (o : outcome) : extends o o.
Proof. destruct o; simpl; [reflexivity|]. exists []. now rewrite app_nil_r. Qed.

Lemma extends_trans (o1 o2 o3 : outcome) :
  extends o1 o2 -> extends o2 o3 -> extends o1 o3.
Proof.
  destruct o1 as [s1|s1]; simpl.
  - intros -> H. exact H.
  - intros [w Hw]. destruct o2 as [s2|s2]; simpl in *.
    + intros ->. exists w. exact Hw.
    + intros [w' Hw']. exists (w ++ w'). rewrite Hw', Hw, app_assoc. reflexivity.
Qed.

Lemma inner_loop_step (fuel : nat) :
  forall row col out,
    extends (inner_loop fuel row col out) (inner_loop (S fuel) row col out).
Proof.
  induction fuel as [|fuel IH]; intros row col out.
  - simpl. destruct (row <? col); simpl.
    + exists [SP]. reflexivity.
    + exists []. now rewrite app_nil_r.
  - change (inner_loop (S (S fuel)) row col out)
      with (if row <? col
            then inner_loop (S fuel) (int_succ row) col (_putchar SP out)
            else Done out).
    change (inner_loop (S fuel) row col out)
      with (if row <? col
            then inner_loop fuel (int_succ row) col (_putchar SP out)
            else Done out).
    destruct (row <? col); [apply IH | reflexivity].
Qed.

Lemma outer_loop_step (fuel : nat) :
  forall col n out,
    extends (outer_loop fuel col n out) (outer_loop (S fuel) col n out).
Proof.
  induction fuel as [|fuel IH]; intros col n out.
  - simpl. destruct (col <=? n); simpl; [|exists []; now rewrite app_nil_r].
    exists []. now rewrite app_nil_r.
  - change (outer_loop (S (S fuel)) col n out)
      with (if col <=? n
            then match inner_loop (S fuel) 1 col out with
                 | Done out1 =>
                     outer_loop (S fuel) (int_succ col) n
                       (_putchar NL (_putchar BS out1))
                 | OutOfFuel out1 => OutOfFuel out1
                 end
            else Done out).
    change (outer_loop (S fuel) col n out)
      with (if col <=? n
            then match inner_loop fuel 1 col out with
                 | Done out1 =>
                     outer_loop fuel (int_succ col) n
                       (_putchar NL (_putchar BS out1))
                 | OutOfFuel out1 => OutOfFuel out1
                 end
            else Done out).
    destruct (col <=? n); [|reflexivity].
    pose proof (inner_loop_step fuel 1 col out) as Hin.
    destruct (inner_loop fuel 1 col out) as [o1|o1]; cbn [extends] in Hin.
    + rewrite Hin. apply IH.
    + destruct Hin as [w Hw].
      destruct (inner_loop (S fuel) 1 col out) as [o2|o2];
        cbn [emitted] in Hw; subst o2; cbn [extends].
      * destruct (outer_loop_emitted (S fuel) (int_succ col) n
                    (_putchar NL (_putchar BS (o1 ++ w)))) as [w' Hw'].
        exists (w ++ [BS] ++ [NL] ++ w'). rewrite Hw'.
        unfold _putchar. rewrite <- !app_assoc. reflexivity.
      * exists w. reflexivity.
Qed.

Lemma outer_loop_mono (f1 f2 : nat) (col n : Z) (out : stream) :
  (f1 <= f2)%nat ->
  extends (outer_loop f1 col n out) (outer_loop f2 col n out).
Proof.
  induction 1 as [|f2 _ IH].
  - apply extends_refl.
  - eapply extends_trans; [exact IH | apply outer_loop_step].
Qed.

Lemma inner_loop_mono (f1 f2 : nat) (row col : Z) (out : stream) :
  (f1 <= f2)%nat ->
  extends (inner_loop f1 row col out) (inner_loop f2 row col out).
Proof.
  induction 1 as [|f2 _ IH].
  - apply extends_refl.
  - eapply extends_trans; [exact IH | apply inner_loop_step].
Qed.

Lemma print_diagonal_mono (f1 f2 : nat) (n : Z) (out : stream) :
  (f1 <= f2)%nat ->
  extends (print_diagonal f1 n out) (print_diagonal f2 n out).
Proof.
  intros H. unfold print_diagonal. destruct (n <=? 0).
  - reflexivity.
  - apply outer_loop_mono. exact H.
Qed.

(** ** The inner loop writes the indentation *)

Lemma inner_loop_spaces (fuel : nat) :
  forall row col out,
    INT_MIN <= row -> col <= INT_MAX ->
    (Z.to_nat (col - row) < fuel)%nat ->
    inner_loop fuel row col out = Done (out ++ repeat SP (Z.to_nat (col - row))).
Proof.
  induction fuel as [|fuel IH]; intros row col out Hrow Hcol Hfuel.
  - lia.
  - cbn [inner_loop]. destruct (Z.ltb_spec row col) as [Hlt|Hge].
    + rewrite int_succ_small by lia.
      rewrite IH by lia.
      replace (Z.to_nat (col - row)) with (S (Z.to_nat (col - (row + 1)))) by lia.
      unfold _putchar. rewrite <- app_assoc. reflexivity.
    + replace (Z.to_nat (col - row)) with O by lia.
      cbn [repeat]. rewrite app_nil_r. reflexivity.
Qed.

(** ** The outer loop writes one line per iteration *)

Lemma rows_S (c k : nat) : rows c (S k) = row_text c ++ rows (S c) k.
Proof. reflexivity. Qed.

Lemma rows_snoc (c k : nat) : rows c (S k) = rows c k ++ row_text (c + k).
Proof.
  unfold rows. rewrite seq_S, flat_map_app. cbn [flat_map].
  rewrite app_nil_r. reflexivity.
Qed.

Lemma outer_loop_iteration (fuel : nat) (col n : Z) (out : stream) :
  1 <= col <= n -> n <= INT_MAX -> (Z.to_nat col <= fuel)%nat ->
  outer_loop (S fuel) col n out =
  outer_loop fuel (int_succ col) n (out ++ row_text (Z.to_nat col)).
Proof.
  intros Hcol Hn Hfuel. cbn [outer_loop].
  destruct (Z.leb_spec col n) as [_|Hgt]; [|lia].
  rewrite inner_loop_spaces by (unfold INT_MIN; lia).
  unfold _putchar, row_text. rewrite <- !app_assoc.
  replace (Z.to_nat (col - 1)) with (Z.to_nat col - 1)%nat by lia.
  reflexivity.
Qed.

(** [k] iterations, started at [col], write lines [col .. col + k - 1] and
    leave the counter at [col + k] as an [int] holds it. *)
Lemma outer_loop_iterations (k : nat) :
  forall fuel col n out,
    1 <= col <= INT_MAX -> col + Z.of_nat k <= n + 1 -> n <= INT_MAX ->
    (k + Z.to_nat n <= fuel)%nat ->
    outer_loop fuel col n out =
    outer_loop (fuel - k) (int_wrap (col + Z.of_nat k)) n
               (out ++ rows (Z.to_nat col) k).
Proof.
  induction k as [|k IH]; intros fuel col n out Hcol Hk Hn Hfuel.
  - rewrite Nat.sub_0_r, Z.add_0_r, int_wrap_small
      by (unfold in_int, INT_MIN; lia).
    unfold rows. cbn [seq flat_map]. rewrite app_nil_r. reflexivity.
  - destruct fuel as [|fuel]; [lia|].
    rewrite outer_loop_iteration by lia.
    rewrite rows_S, app_assoc.
    replace (S fuel - S k)%nat with (fuel - k)%nat by lia.
    replace (col + Z.of_nat (S k)) with (col + 1 + Z.of_nat k) by lia.
    destruct k as [|k].
    + rewrite Nat.sub_0_r, Z.add_0_r. unfold rows. cbn [seq flat_map].
      rewrite app_nil_r. reflexivity.
    + rewrite int_succ_small by (unfold INT_MIN; lia).
      rewrite IH by lia.
      replace (Z.to_nat (col + 1)) with (S (Z.to_nat col)) by lia.
      reflexivity.
Qed.

(** For [0 < n < INT_MAX] the call returns, having written the drawing. *)
Theorem print_diagonal_rows (n : Z) (fuel : nat) (pre : stream) :
  0 < n < INT_MAX -> (2 * Z.to_nat n < fuel)%nat ->
  print_diagonal fuel n pre = Done (pre ++ diagonal (Z.to_nat n)).
Proof.
  intros Hn Hfuel. unfold print_diagonal.
  destruct (Z.leb_spec n 0) as [Hle|_]; [lia|].
  rewrite (outer_loop_iterations (Z.to_nat n)) by (unfold INT_MAX in *; lia).
  rewrite int_wrap_small by (unfold in_int, INT_MIN; lia).
  destruct (fuel - Z.to_nat n)%nat as [|f] eqn:Hf; [lia|].
  cbn [outer_loop].
  destruct (Z.leb_spec (1 + Z.of_nat (Z.to_nat n)) n) as [Hle|_]; [lia|].
  reflexivity.
Qed.

Lemma print_diagonal_rows_witness :
  print_diagonal 7 3 [] = Done ([] ++ diagonal (Z.to_nat 3)).
Proof.
  apply print_diagonal_rows; [unfold INT_MAX; lia | simpl; lia].
Defined.

(** ** The case [n = INT_MAX] *)

(** [col <= INT_MAX] holds for every value an [int] can take, and [col++]
    keeps [col] an [int]: the loop guard never fails. *)
Lemma outer_loop_INT_MAX (fuel : nat) :
  forall col out,
    col <= INT_MAX -> is_done (outer_loop fuel col INT_MAX out) = false.
Proof.
  induction fuel as [|fuel IH]; intros col out Hcol.
  - reflexivity.
  - cbn [outer_loop]. destruct (Z.leb_spec col INT_MAX) as [_|Hgt]; [|lia].
    destruct (inner_loop fuel 1 col out) as [out1|out1].
    + apply IH. apply int_wrap_in_int.
    + reflexivity.
Qed.

Lemma print_diagonal_INT_MAX (fuel : nat) (pre : stream) :
  is_done (print_diagonal fuel INT_MAX pre) = false.
Proof.
  unfold print_diagonal.
  destruct (Z.leb_spec INT_MAX 0) as [Hle|_]; [unfold INT_MAX in Hle; lia|].
  apply outer_loop_INT_MAX. unfold INT_MAX. lia.
Qed.

(** ** Reading lines and counting characters *)

Lemma row_text_content (i : nat) : row_text i = row_content i ++ [NL].
Proof. unfold row_text, row_content. rewrite <- app_assoc. reflexivity. Qed.

Lemma split_lines_line (w : list ascii) :
  forall cur rest,
    forallb (fun c => negb (Ascii.eqb c NL)) w = true ->
    split_lines cur (w ++ NL :: rest) = (cur ++ w) :: split_lines [] rest.
Proof.
  induction w as [|c w IH]; intros cur rest Hw.
  - cbn [app split_lines]. rewrite Ascii.eqb_refl, app_nil_r. reflexivity.
  - cbn [forallb] in Hw. apply andb_true_iff in Hw as [Hc Hw].
    cbn [app split_lines]. apply negb_true_iff in Hc. rewrite Hc.
    rewrite IH by exact Hw. rewrite <- app_assoc. reflexivity.
Qed.

Lemma row_content_no_newline (i : nat) :
  forallb (fun c => negb (Ascii.eqb c NL)) (row_content i) = true.
Proof.
  unfold row_content. rewrite forallb_app. apply andb_true_iff. split.
  - induction (i - 1)%nat as [|j IH]; [reflexivity | exact IH].
  - reflexivity.
Qed.

Lemma lines_row_text (i : nat) (rest : stream) :
  lines (row_text i ++ rest) = row_content i :: lines rest.
Proof.
  unfold lines. rewrite row_text_content, <- app_assoc. cbn [app].
  rewrite split_lines_line by apply row_content_no_newline. reflexivity.
Qed.

Lemma lines_rows (k : nat) :
  forall c rest,
    lines (rows c k ++ rest) = map row_content (seq c k) ++ lines rest.
Proof.
  induction k as [|k IH]; intros c rest.
  - reflexivity.
  - rewrite rows_S, <- app_assoc, lines_row_text, IH. reflexivity.
Qed.

Lemma lines_diagonal (n : nat) : lines (diagonal n) = map row_content (seq 1 n).
Proof.
  unfold diagonal. rewrite <- (app_nil_r (rows 1 n)), lines_rows.
  apply app_nil_r.
Qed.

Lemma row_content_length (i : nat) : (1 <= i)%nat -> length (row_content i) = i.
Proof.
  intros H. unfold row_content. rewrite length_app, repeat_length.
  cbn [length]. lia.
Qed.

Lemma count_newline_app (a b : stream) :
  count_newline (a ++ b) = (count_newline a + count_newline b)%nat.
Proof. unfold count_newline. rewrite filter_app, length_app. reflexivity. Qed.

Lemma count_content_app (a b : stream) :
  count_content (a ++ b) = (count_content a + count_content b)%nat.
Proof. unfold count_content. rewrite filter_app, length_app. reflexivity. Qed.

Lemma count_newline_spaces (j : nat) : count_newline (repeat SP j) = O.
Proof. induction j as [|j IH]; [reflexivity | exact IH]. Qed.

Lemma count_content_spaces (j : nat) : count_content (repeat SP j) = j.
Proof.
  induction j as [|j IH]; [reflexivity|].
  change (count_content (repeat SP (S j))) with (S (count_content (repeat SP j))).
  rewrite IH. reflexivity.
Qed.

Lemma count_newline_row_text (i : nat) : count_newline (row_text i) = 1%nat.
Proof.
  unfold row_text. rewrite count_newline_app, count_newline_spaces. reflexivity.
Qed.

Lemma count_content_row_text (i : nat) :
  (1 <= i)%nat -> count_content (row_text i) = i.
Proof.
  intros H. unfold row_text. rewrite count_content_app, count_content_spaces.
  change (count_content [BS; NL]) with 1%nat. lia.
Qed.

Lemma count_newline_rows (k : nat) : forall c, count_newline (rows c k) = k.
Proof.
  induction k as [|k IH]; intros c.
  - reflexivity.
  - rewrite rows_S, count_newline_app, count_newline_row_text, IH. reflexivity.
Qed.

Lemma count_content_rows (k : nat) :
  forall c, (1 <= c)%nat ->
    2 * Z.of_nat (count_content (rows c k)) =
    Z.of_nat k * (2 * Z.of_nat c + Z.of_nat k - 1).
Proof.
  induction k as [|k IH]; intros c Hc.
  - reflexivity.
  - rewrite rows_S, count_content_app, count_content_row_text by exact Hc.
    rewrite Nat2Z.inj_add, Z.mul_add_distr_l, IH by lia.
    rewrite !Nat2Z.inj_succ. ring.
Qed.

(** ** One iteration from any counter value, and unbounded output *)

Lemma outer_loop_iteration_any (fuel : nat) (col n : Z) (out : stream) :
  col <= n -> col <= INT_MAX -> (Z.to_nat (col - 1) < fuel)%nat ->
  outer_loop (S fuel) col n out =
  outer_loop fuel (int_succ col) n
             (out ++ repeat SP (Z.to_nat (col - 1)) ++ [BS; NL]).
Proof.
  intros Hcol Hmax Hfuel. cbn [outer_loop].
  destruct (Z.leb_spec col n) as [_|Hgt]; [|lia].
  rewrite inner_loop_spaces by (unfold INT_MIN; lia).
  unfold _putchar. rewrite <- !app_assoc. reflexivity.
Qed.

Lemma count_newline_le_length (s : stream) : (count_newline s <= length s)%nat.
Proof. unfold count_newline. apply filter_length_le. Qed.

(** With [n = INT_MAX] every iteration is followed by another one, so any
    number of lines ends up on the stream. *)
Lemma outer_loop_INT_MAX_progress (m : nat) :
  forall col out,
    col <= INT_MAX ->
    exists fuel0, forall fuel, (fuel0 <= fuel)%nat ->
      exists w, emitted (outer_loop fuel col INT_MAX out) = out ++ w /\
                (m <= count_newline w)%nat.
Proof.
  induction m as [|m IH]; intros col out Hcol.
  - exists O. intros fuel _.
    destruct (outer_loop_emitted fuel col INT_MAX out) as [w Hw].
    exists w. split; [exact Hw | lia].
  - destruct (IH (int_succ col)
                 (out ++ repeat SP (Z.to_nat (col - 1)) ++ [BS; NL]))
      as [fuel1 Hfuel1].
    { apply int_wrap_in_int. }
    exists (S (Nat.max fuel1 (S (Z.to_nat (col - 1))))).
    intros fuel Hfuel. destruct fuel as [|fuel]; [lia|].
    rewrite outer_loop_iteration_any by lia.
    destruct (Hfuel1 fuel ltac:(lia)) as [w [Hw Hm]].
    exists ((repeat SP (Z.to_nat (col - 1)) ++ [BS; NL]) ++ w). split.
    + rewrite Hw, <- app_assoc. reflexivity.
    + rewrite !count_newline_app, count_newline_spaces.
      change (count_newline [BS; NL]) with 1%nat. lia.
Qed.

Lemma print_diagonal_INT_MAX_outer (fuel : nat) (pre : stream) :
  print_diagonal fuel INT_MAX pre = outer_loop fuel 1 INT_MAX pre.
Proof. reflexivity. Qed.

(** ** What the call does for every other argument *)

Lemma print_diagonal_le_0 (fuel : nat) (n : Z) (pre : stream) :
  n <= 0 -> print_diagonal fuel n pre = Done (pre ++ [NL]).
Proof.
  intros Hn. unfold print_diagonal.
  destruct (Z.leb_spec n 0) as [_|Hgt]; [reflexivity | lia].
Qed.

(** The call returns exactly when its argument is not [INT_MAX]. *)
Theorem print_diagonal_completes_iff (n : Z) :
  in_int n -> (completes n <-> n <> INT_MAX).
Proof.
  intros [Hlo Hhi]. split.
  - intros [fuel [out Hrun]] ->.
    pose proof (print_diagonal_INT_MAX fuel []) as Hnot.
    rewrite Hrun in Hnot. discriminate.
  - intros Hne. destruct (Z_le_gt_dec n 0) as [Hle|Hgt].
    + exists O, ([] ++ [NL]). apply print_diagonal_le_0. exact Hle.
    + exists (S (2 * Z.to_nat n)), ([] ++ diagonal (Z.to_nat n)).
      apply print_diagonal_rows; lia.
Qed.

Lemma print_diagonal_completes_iff_witness :
  completes 3 <-> 3 <> INT_MAX.
Proof.
  apply print_diagonal_completes_iff. unfold in_int, INT_MIN, INT_MAX. lia.
Defined.

(** For [0 < n < INT_MAX] the output read line by line is lines [1 .. n],
    line [i] being [i - 1] spaces and a backslash. *)
Theorem print_diagonal_lines (n : Z) (fuel : nat) :
  0 < n < INT_MAX -> (2 * Z.to_nat n < fuel)%nat ->
  exists out,
    print_diagonal fuel n [] = Done out /\
    lines out = map row_content (seq 1 (Z.to_nat n)) /\
    Z.of_nat (length (lines out)) = n /\
    out = flat_map (fun l => l ++ [NL]) (lines out).
Proof.
  intros Hn Hfuel. exists (diagonal (Z.to_nat n)).
  split; [apply (print_diagonal_rows n fuel []); assumption|].
  rewrite lines_diagonal. split; [reflexivity|]. split.
  - rewrite length_map, length_seq. lia.
  - unfold diagonal, rows. rewrite flat_map_concat_map, flat_map_concat_map.
    rewrite map_map. f_equal. apply map_ext. intros i. apply row_text_content.
Qed.

Lemma print_diagonal_lines_witness :
  exists out,
    print_diagonal 9 4 [] = Done out /\
    lines out = map row_content (seq 1 (Z.to_nat 4)) /\
    Z.of_nat (length (lines out)) = 4 /\
    out = flat_map (fun l => l ++ [NL]) (lines out).
Proof.
  apply print_diagonal_lines; [unfold INT_MAX; lia | simpl; lia].
Defined.

(** For [1 <= n < INT_MAX - 1] the output for [n + 1] is the output for [n]
    followed by one line of [n] spaces, a backslash and a newline. *)
Theorem print_diagonal_succ (n : Z) (fuel : nat) :
  1 <= n < INT_MAX - 1 -> (2 * Z.to_nat (n + 1) < fuel)%nat ->
  exists out,
    print_diagonal fuel n [] = Done out /\
    print_diagonal fuel (n + 1) [] =
      Done (out ++ repeat SP (Z.to_nat n) ++ [BS; NL]).
Proof.
  intros Hn Hfuel. exists (diagonal (Z.to_nat n)). split.
  - apply (print_diagonal_rows n fuel []); lia.
  - rewrite (print_diagonal_rows (n + 1) fuel []) by lia.
    replace (Z.to_nat (n + 1)) with (S (Z.to_nat n)) by lia.
    unfold diagonal. rewrite rows_snoc. unfold row_text.
    replace (1 + Z.to_nat n - 1)%nat with (Z.to_nat n) by lia.
    reflexivity.
Qed.

Lemma print_diagonal_succ_witness :
  exists out,
    print_diagonal 9 3 [] = Done out /\
    print_diagonal 9 (3 + 1) [] =
      Done (out ++ repeat SP (Z.to_nat 3) ++ [BS; NL]).
Proof.
  apply print_diagonal_succ; [unfold INT_MAX; lia | simpl; lia].
Defined.

Lemma rows_last (k : nat) : forall c, last (rows c (S k)) SP = NL.
Proof.
  intros c. rewrite rows_snoc. unfold row_text.
  change [BS; NL] with ([BS] ++ [NL]). rewrite !app_assoc.
  apply last_last.
Qed.

(** For every argument other than [INT_MAX] the output is non-empty and its
    last character is a newline. *)
Theorem print_diagonal_ends_newline (n : Z) :
  in_int n -> n <> INT_MAX ->
  exists fuel out,
    print_diagonal fuel n [] = Done out /\ out <> [] /\ last out SP = NL.
Proof.
  intros [Hlo Hhi] Hne. destruct (Z_le_gt_dec n 0) as [Hle|Hgt].
  - exists O, [NL]. split; [|split].
    + apply (print_diagonal_le_0 O n []). exact Hle.
    + discriminate.
    + reflexivity.
  - exists (S (2 * Z.to_nat n)), (diagonal (Z.to_nat n)). split; [|split].
    + apply (print_diagonal_rows n _ []); lia.
    + destruct (Z.to_nat n) as [|k] eqn:Hk; [lia|].
      unfold diagonal. rewrite rows_S. unfold row_text.
      destruct (repeat SP (1 - 1)); discriminate.
    + destruct (Z.to_nat n) as [|k] eqn:Hk; [lia|]. apply rows_last.
Qed.

Lemma print_diagonal_ends_newline_witness :
  exists fuel out,
    print_diagonal fuel (-7) [] = Done out /\ out <> [] /\ last out SP = NL.
Proof.
  apply print_diagonal_ends_newline; unfold in_int, INT_MIN, INT_MAX; lia.
Defined.

(** ** The claims *)

(** C1: for [n > 0] the call should write exactly [n] lines.  At
    [n = INT_MAX] it does not: with a large enough step budget more than
    [INT_MAX] newline-terminated lines are on the stream. *)
Theorem print_diagonal_INT_MAX_lines :
  exists fuel,
    INT_MAX < Z.of_nat (count_newline (emitted (print_diagonal fuel INT_MAX []))).
Proof.
  destruct (outer_loop_INT_MAX_progress (S (Z.to_nat INT_MAX)) 1 [])
    as [fuel0 Hfuel0].
  { unfold INT_MAX. lia. }
  exists fuel0. destruct (Hfuel0 fuel0 (Nat.le_refl fuel0)) as [w [Hw Hm]].
  rewrite print_diagonal_INT_MAX_outer, Hw. cbn [app]. lia.
Qed.

(** C2: for every [n <= 0] the call writes exactly one newline character
    and nothing else, whatever the step budget and whatever the stream held
    before. *)
Theorem print_diagonal_nonpositive (fuel : nat) (n : Z) (pre : stream) :
  n <= 0 -> print_diagonal fuel n pre = Done (pre ++ [NL]).
Proof. apply print_diagonal_le_0. Qed.

Lemma print_diagonal_nonpositive_witness :
  print_diagonal 0 (-5) [] = Done ([] ++ [NL]).
Proof. apply print_diagonal_nonpositive. lia. Defined.

(** C3, the claim as written fails at [n = 2]: the call writes 3 characters
    other than newlines, not [2 + 2 * 1 = 2 + 2 * (2 - 1) = 4]. *)
Lemma print_diagonal_count_2 :
  exists out,
    print_diagonal 5 2 [] = Done out /\
    Z.of_nat (count_content out) = 3 /\
    Z.of_nat (count_content out) <> 2 + 2 * (2 - 1).
Proof.
  exists [BS; NL; SP; BS; NL]. split; [reflexivity|].
  split; [reflexivity | discriminate].
Qed.

(** C3, amended: for [0 < n < INT_MAX] the call returns having written
    [n * (n + 1) / 2] characters other than newlines (line [i] has [i] of
    them) and [n] newlines. *)
Theorem print_diagonal_counts (n : Z) (fuel : nat) :
  0 < n < INT_MAX -> (2 * Z.to_nat n < fuel)%nat ->
  exists out,
    print_diagonal fuel n [] = Done out /\
    2 * Z.of_nat (count_content out) = n * (n + 1) /\
    Z.of_nat (count_content out) = n * (n + 1) / 2 /\
    Z.of_nat (count_newline out) = n.
Proof.
  intros Hn Hfuel. exists (diagonal (Z.to_nat n)).
  split; [apply (print_diagonal_rows n fuel []); assumption|].
  assert (Hc : 2 * Z.of_nat (count_content (diagonal (Z.to_nat n))) = n * (n + 1)).
  { unfold diagonal. rewrite count_content_rows by lia.
    rewrite Z2Nat.id by lia. change (Z.of_nat 1) with 1. ring. }
  split; [exact Hc|]. split.
  - rewrite <- Hc, Z.mul_comm, Z.div_mul by lia. reflexivity.
  - unfold diagonal. rewrite count_newline_rows. lia.
Qed.

Lemma print_diagonal_counts_witness :
  exists out,
    print_diagonal 7 3 [] = Done out /\
    2 * Z.of_nat (count_content out) = 3 * (3 + 1) /\
    Z.of_nat (count_content out) = 3 * (3 + 1) / 2 /\
    Z.of_nat (count_newline out) = 3.
Proof.
  apply print_diagonal_counts; [unfold INT_MAX; lia | simpl; lia].
Defined.

(** C4: for every [int] [n > 0] and every [i] with [1 <= i <= n], once the
    step budget is large enough the [i]-th newline-terminated line on the
    stream is [i - 1] spaces and a backslash: exactly [i] characters before
    its newline. *)
Theorem print_diagonal_row_length (n i : Z) :
  0 < n <= INT_MAX -> 1 <= i <= n ->
  exists fuel0, forall fuel, (fuel0 <= fuel)%nat ->
    nth_error (lines (emitted (print_diagonal fuel n []))) (Z.to_nat (i - 1))
      = Some (row_content (Z.to_nat i)) /\
    Z.of_nat (length (row_content (Z.to_nat i))) = i.
Proof.
  intros Hn Hi. exists (Z.to_nat i + Z.to_nat n)%nat. intros fuel Hfuel. split.
  - unfold print_diagonal. destruct (Z.leb_spec n 0) as [Hle|_]; [lia|].
    rewrite (outer_loop_iterations (Z.to_nat i)) by (unfold INT_MAX in *; lia).
    destruct (outer_loop_emitted (fuel - Z.to_nat i)
                (int_wrap (1 + Z.of_nat (Z.to_nat i))) n
                ([] ++ rows (Z.to_nat 1) (Z.to_nat i))) as [w Hw].
    rewrite Hw. cbn [app]. rewrite lines_rows.
    rewrite nth_error_app1 by (rewrite length_map, length_seq; lia).
    apply map_nth_error. rewrite nth_error_seq.
    destruct (Nat.ltb_spec (Z.to_nat (i - 1)) (Z.to_nat i)) as [_|Hge]; [|lia].
    f_equal. change (Z.to_nat 1) with 1%nat. lia.
  - rewrite row_content_length by lia. lia.
Qed.

Lemma print_diagonal_row_length_witness :
  exists fuel0, forall fuel, (fuel0 <= fuel)%nat ->
    nth_error (lines (emitted (print_diagonal fuel 3 []))) (Z.to_nat (2 - 1))
      = Some (row_content (Z.to_nat 2)) /\
    Z.of_nat (length (row_content (Z.to_nat 2))) = 2.
Proof.
  apply print_diagonal_row_length; unfold INT_MAX; lia.
Defined.

(** C5: the outputs for [n = 1], [n = 3] and [n = 4] are the three drawings
    of the examples, for every step budget of at least 9. *)
Theorem print_diagonal_examples (k : nat) :
  print_diagonal (k + 9) 1 [] = Done [BS; NL] /\
  print_diagonal (k + 9) 3 [] = Done [BS; NL; SP; BS; NL; SP; SP; BS; NL] /\
  print_diagonal (k + 9) 4 [] =
    Done [BS; NL; SP; BS; NL; SP; SP; BS; NL; SP; SP; SP; BS; NL].
Proof.
  assert (Hle : (9 <= k + 9)%nat) by lia.
  pose proof (print_diagonal_mono 9 (k + 9) 1 [] Hle) as H1.
  pose proof (print_diagonal_mono 9 (k + 9) 3 [] Hle) as H3.
  pose proof (print_diagonal_mono 9 (k + 9) 4 [] Hle) as H4.
  change (print_diagonal 9 1 []) with (Done [BS; NL]) in H1.
  change (print_diagonal 9 3 [])
    with (Done [BS; NL; SP; BS; NL; SP; SP; BS; NL]) in H3.
  change (print_diagonal 9 4 [])
    with (Done [BS; NL; SP; BS; NL; SP; SP; BS; NL; SP; SP; SP; BS; NL]) in H4.
  repeat split; assumption.
Qed.

(** C6: what a call writes depends on [n] alone.  Two calls with the same
    [n], started on streams holding [pre1] and [pre2] and given step budgets
    [f1 <= f2], write [w1] and [w2] after what was there; [w2] continues
    [w1], and when the first call has returned so has the second, with the
    same characters written. *)
Theorem print_diagonal_deterministic (n : Z) (f1 f2 : nat) (pre1 pre2 : stream) :
  (f1 <= f2)%nat ->
  exists w1 w2,
    emitted (print_diagonal f1 n pre1) = pre1 ++ w1 /\
    emitted (print_diagonal f2 n pre2) = pre2 ++ w2 /\
    (exists w, w2 = w1 ++ w) /\
    (is_done (print_diagonal f1 n pre1) = true ->
     w2 = w1 /\ is_done (print_diagonal f2 n pre2) = true).
Proof.
  intros Hle.
  exists (emitted (print_diagonal f1 n [])), (emitted (print_diagonal f2 n [])).
  rewrite <- (app_nil_r pre1) at 1 3. rewrite <- (app_nil_r pre2) at 1 3.
  rewrite !print_diagonal_after, !emitted_after, !is_done_after.
  split; [reflexivity|]. split; [reflexivity|].
  pose proof (print_diagonal_mono f1 f2 n [] Hle) as Hext.
  destruct (print_diagonal f1 n []) as [s1|s1]; cbn [extends] in Hext.
  - rewrite Hext. cbn [emitted is_done]. split.
    + exists []. rewrite app_nil_r. reflexivity.
    + intros _. split; reflexivity.
  - split; [exact Hext|]. cbn [is_done]. discriminate.
Qed.

Lemma print_diagonal_deterministic_witness :
  exists w1 w2,
    emitted (print_diagonal 7 3 []) = [] ++ w1 /\
    emitted (print_diagonal 9 3 [BS; NL]) = [BS; NL] ++ w2 /\
    (exists w, w2 = w1 ++ w) /\
    (is_done (print_diagonal 7 3 []) = true ->
     w2 = w1 /\ is_done (print_diagonal 9 3 [BS; NL]) = true).
Proof. apply print_diagonal_deterministic. lia. Defined.

(** C7: the call should complete normally for every [n].  At [n = INT_MAX]
    it is still running after any number of steps, on any stream. *)
Theorem print_diagonal_INT_MAX_never_returns (fuel : nat) (pre : stream) :
  exists w, print_diagonal fuel INT_MAX pre = OutOfFuel (pre ++ w).
Proof.
  pose proof (print_diagonal_INT_MAX fuel pre) as Hnot.
  destruct (outer_loop_emitted fuel 1 INT_MAX pre) as [w Hw].
  rewrite <- print_diagonal_INT_MAX_outer in Hw.
  destruct (print_diagonal fuel INT_MAX pre) as [s|s]; [discriminate|].
  exists w. cbn [emitted] in Hw. rewrite Hw. reflexivity.
Qed.

(** C8: the call should terminate for every [n], its loops bounded by [n].
    At [n = INT_MAX] the outer loop is not left from any value [col] can
    hold, and the call is not done within any step budget. *)
Theorem print_diagonal_INT_MAX_diverges (fuel : nat) :
  (forall col out, is_done (outer_loop fuel (int_wrap col) INT_MAX out) = false) /\
  is_done (print_diagonal fuel INT_MAX []) = false.
Proof.
  split.
  - intros col out. apply outer_loop_INT_MAX. apply int_wrap_in_int.
  - apply print_diagonal_INT_MAX.
Qed.

(** C9: the output for [n + 1] should be the output for [n] plus one line.
    At [n = INT_MAX - 1] the call for [n] returns with its [n] lines, while
    the call for [n + 1] never returns and goes on writing lines after
    them. *)
Theorem print_diagonal_succ_INT_MAX :
  (exists fuel,
     print_diagonal fuel (INT_MAX - 1) [] =
       Done (diagonal (Z.to_nat (INT_MAX - 1)))) /\
  (forall fuel, is_done (print_diagonal fuel (INT_MAX - 1 + 1) []) = false) /\
  (exists fuel,
     INT_MAX - 1 + 1 <
     Z.of_nat (count_newline (emitted (print_diagonal fuel (INT_MAX - 1 + 1) [])))).
Proof.
  replace (INT_MAX - 1 + 1) with INT_MAX by lia. split; [|split].
  - assert (Hm : 0 < INT_MAX - 1 < INT_MAX) by (unfold INT_MAX; lia).
    revert Hm. generalize (INT_MAX - 1). intros m Hm.
    exists (S (2 * Z.to_nat m)).
    apply (print_diagonal_rows m (S (2 * Z.to_nat m)) [] Hm). lia.
  - intros fuel. apply print_diagonal_INT_MAX.
  - destruct (outer_loop_INT_MAX_progress (S (Z.to_nat INT_MAX)) 1 [])
      as [fuel0 Hfuel0].
    { unfold INT_MAX. lia. }
    exists fuel0. destruct (Hfuel0 fuel0 (Nat.le_refl fuel0)) as [w [Hw Hm]].
    rewrite print_diagonal_INT_MAX_outer, Hw. cbn [app]. lia.
Qed.

(** C10: the output should be non-empty and end with a newline for every
    [n].  At [n = INT_MAX] there is no last character: past any length the
    stream is still being written to. *)
Theorem print_diagonal_INT_MAX_unbounded (len : nat) :
  exists fuel,
    (len < length (emitted (print_diagonal fuel INT_MAX [])))%nat /\
    is_done (print_diagonal fuel INT_MAX []) = false.
Proof.
  destruct (outer_loop_INT_MAX_progress (S len) 1 []) as [fuel0 Hfuel0].
  { unfold INT_MAX. lia. }
  exists fuel0. split; [|apply print_diagonal_INT_MAX].
  destruct (Hfuel0 fuel0 (Nat.le_refl fuel0)) as [w [Hw Hm]].
  rewrite print_diagonal_INT_MAX_outer, Hw. cbn [app].
  pose proof (count_newline_le_length w). lia.
Qed.

(** ** Further properties of the loops and of the call *)

Lemma rows_app (a b : nat) : forall c, rows c (a + b) = rows c a ++ rows (c + a) b.
Proof.
  intros c. unfold rows. rewrite seq_app, flat_map_app. reflexivity.
Qed.

Lemma inner_loop_alphabet (fuel : nat) :
  forall row col out,
    Forall (fun c => c = SP \/ c = BS \/ c = NL) out ->
    Forall (fun c => c = SP \/ c = BS \/ c = NL)
           (emitted (inner_loop fuel row col out)).
Proof.
  induction fuel as [|fuel IH]; intros row col out Hout; cbn [inner_loop].
  - exact Hout.
  - destruct (row <? col); [|exact Hout].
    apply IH. unfold _putchar. apply Forall_app. split; [exact Hout|].
    constructor; [left; reflexivity | constructor].
Qed.

Lemma outer_loop_alphabet (fuel : nat) :
  forall col n out,
    Forall (fun c => c = SP \/ c = BS \/ c = NL) out ->
    Forall (fun c => c = SP \/ c = BS \/ c = NL)
           (emitted (outer_loop fuel col n out)).
Proof.
  induction fuel as [|fuel IH]; intros col n out Hout; cbn [outer_loop].
  - exact Hout.
  - destruct (col <=? n); [|exact Hout].
    pose proof (inner_loop_alphabet fuel 1 col out Hout) as Hin.
    destruct (inner_loop fuel 1 col out) as [out1|out1]; cbn [emitted] in Hin.
    + apply IH. unfold _putchar. rewrite <- app_assoc.
      apply Forall_app. split; [exact Hin|].
      constructor; [right; left; reflexivity|].
      constructor; [right; right; reflexivity | constructor].
    + exact Hin.
Qed.

(** Whatever the argument and however long the call has run, the only
    characters it has written are spaces, backslashes and newlines. *)
Theorem print_diagonal_alphabet (fuel : nat) (n : Z) :
  Forall (fun c => c = SP \/ c = BS \/ c = NL)
         (emitted (print_diagonal fuel n [])).
Proof.
  unfold print_diagonal. destruct (n <=? 0).
  - cbn. constructor; [right; right; reflexivity | constructor].
  - apply outer_loop_alphabet. constructor.
Qed.

(** The inner loop is left for every value [col] can hold, zero, negative
    and [INT_MAX] included, after writing [col - 1] spaces (none when
    [col <= 1]): [row] stays below [col] and never overflows. *)
Theorem inner_loop_returns (fuel : nat) (col : Z) (out : stream) :
  in_int col -> (Z.to_nat (col - 1) < fuel)%nat ->
  inner_loop fuel 1 col out = Done (out ++ repeat SP (Z.to_nat (col - 1))).
Proof.
  intros [_ Hhi] Hfuel. apply inner_loop_spaces; [unfold INT_MIN; lia | | ]; assumption.
Qed.

Lemma inner_loop_returns_witness :
  inner_loop 3 1 (-4) [BS; NL] = Done ([BS; NL] ++ repeat SP (Z.to_nat (-4 - 1))) /\
  inner_loop 3 1 3 [BS; NL] = Done ([BS; NL] ++ repeat SP (Z.to_nat (3 - 1))).
Proof.
  split; apply inner_loop_returns;
    solve [unfold in_int, INT_MIN, INT_MAX; lia | simpl; lia].
Defined.

(** For [0 < m <= n < INT_MAX] the output for [m] is the beginning of the
    output for [n], which goes on with lines [m + 1 .. n]. *)
Theorem print_diagonal_prefix (m n : Z) (fuel : nat) :
  0 < m <= n -> n < INT_MAX -> (2 * Z.to_nat n < fuel)%nat ->
  exists out,
    print_diagonal fuel m [] = Done out /\
    print_diagonal fuel n [] =
      Done (out ++ rows (S (Z.to_nat m)) (Z.to_nat (n - m))).
Proof.
  intros Hm Hn Hfuel. exists (diagonal (Z.to_nat m)). split.
  - apply (print_diagonal_rows m fuel []); lia.
  - rewrite (print_diagonal_rows n fuel []) by lia.
    replace (Z.to_nat n) with (Z.to_nat m + Z.to_nat (n - m))%nat by lia.
    unfold diagonal. rewrite rows_app. reflexivity.
Qed.

Lemma print_diagonal_prefix_witness :
  exists out,
    print_diagonal 11 2 [] = Done out /\
    print_diagonal 11 5 [] =
      Done (out ++ rows (S (Z.to_nat 2)) (Z.to_nat (5 - 2))).
Proof.
  apply print_diagonal_prefix; solve [unfold INT_MAX; lia | simpl; lia].
Defined.

(** For [0 < n < INT_MAX], at every moment of the call what is on the
    stream is a beginning of the drawing of size [n]: nothing is written out
    of place and nothing is written beyond it. *)
Theorem print_diagonal_partial (n : Z) (fuel : nat) :
  0 < n < INT_MAX ->
  exists w, diagonal (Z.to_nat n) = emitted (print_diagonal fuel n []) ++ w.
Proof.
  intros Hn.
  pose proof (print_diagonal_rows n (S (2 * Z.to_nat n)) [] Hn ltac:(lia)) as Hfull.
  destruct (Nat.le_gt_cases fuel (S (2 * Z.to_nat n))) as [Hle|Hgt].
  - pose proof (print_diagonal_mono fuel (S (2 * Z.to_nat n)) n [] Hle) as Hext.
    rewrite Hfull in Hext.
    destruct (print_diagonal fuel n []) as [s|s]; cbn [extends emitted] in *.
    + injection Hext as <-. exists []. rewrite app_nil_r. reflexivity.
    + destruct Hext as [w Hw]. exists w. exact Hw.
  - rewrite (print_diagonal_rows n fuel []) by lia.
    exists []. cbn [emitted app]. rewrite app_nil_r. reflexivity.
Qed.

Lemma print_diagonal_partial_witness :
  exists w, diagonal (Z.to_nat 4) = emitted (print_diagonal 3 4 []) ++ w.
Proof. apply print_diagonal_partial. unfold INT_MAX. lia. Defined.

(** For every [int] [n > 0], [INT_MAX] included, once the step budget is
    large enough the stream begins with the whole drawing of size [n]. *)
Theorem print_diagonal_first_lines (n : Z) :
  0 < n <= INT_MAX ->
  exists fuel0, forall fuel, (fuel0 <= fuel)%nat ->
    exists w, emitted (print_diagonal fuel n []) = diagonal (Z.to_nat n) ++ w.
Proof.
  intros Hn. exists (Z.to_nat n + Z.to_nat n)%nat. intros fuel Hfuel.
  unfold print_diagonal. destruct (Z.leb_spec n 0) as [Hle|_]; [lia|].
  rewrite (outer_loop_iterations (Z.to_nat n)) by (unfold INT_MAX in *; lia).
  destruct (outer_loop_emitted (fuel - Z.to_nat n)
              (int_wrap (1 + Z.of_nat (Z.to_nat n))) n
              ([] ++ rows (Z.to_nat 1) (Z.to_nat n))) as [w Hw].
  exists w. rewrite Hw. reflexivity.
Qed.

Lemma print_diagonal_first_lines_witness :
  exists fuel0, forall fuel, (fuel0 <= fuel)%nat ->
    exists w, emitted (print_diagonal fuel 3 []) = diagonal (Z.to_nat 3) ++ w.
Proof. apply print_diagonal_first_lines. unfold INT_MAX. lia. Defined.
